(** * datacop: the Validator, its field, group and conditional chains

    A shallow embedding of [validator.go].  A [*Validator] is a location in a
    heap of validator objects, so that two handles to the same validator are
    the same location; every method is a computation over that heap which
    either returns a value and a new heap or panics. *)

From stdpp Require Import gmap strings list fin_maps.

Local Open Scope string_scope.
Local Open Scope list_scope.

(** ** Runtime model: results, heap, computations *)

Inductive result (A : Type) : Type :=
| Ok (a : A)
| Panic.
Arguments Ok {A} a.
Arguments Panic {A}.

(** A Go [map[string]V]: [None] is the nil map, [Some m] an initialised one. *)
Definition gomap (V : Type) : Type := option (gmap string V).

Definition make_map {V : Type} : gomap V := Some ∅.

Definition map_entries {V : Type} (m : gomap V) : gmap string V := default ∅ m.

(** [x, ok := m[k]]: reading a nil map is allowed and finds nothing. *)
Definition map_index {V : Type} (zero : V) (m : gomap V) (k : string) : V * bool :=
  match map_entries m !! k with
  | Some x => (x, true)
  | None => (zero, false)
  end.

Definition map_len {V : Type} (m : gomap V) : nat := size (map_entries m).

(** [m[k] = x]: assignment to an entry of a nil map panics. *)
Definition map_assign {V : Type} (m : gomap V) (k : string) (x : V) : result (gomap V) :=
  match m with
  | Some g => Ok (Some (<[k := x]> g))
  | None => Panic
  end.

Module ValidationError.
Record t : Type := mk { Field : string; Message : string }.
End ValidationError.

Module Validator.
Record t : Type := mk { errors : gomap (list ValidationError.t) }.
End Validator.

(** A [*Validator]: the address of a validator object. *)
Abbreviation loc := positive (only parsing).

Abbreviation heap := (gmap positive Validator.t) (only parsing).

Definition M (A : Type) : Type := heap -> result (A * heap).

Definition ret {A : Type} (a : A) : M A := fun h => Ok (a, h).

Definition bind {A B : Type} (m : M A) (k : A -> M B) : M B :=
  fun h =>
    match m h with
    | Ok (a, h') => k a h'
    | Panic => Panic
    end.

Notation "x <- m ;; k" := (bind m (fun x => k))
  (at level 100, m at next level, right associativity).

Definition lift {A : Type} (r : result A) : M A :=
  fun h =>
    match r with
    | Ok a => Ok (a, h)
    | Panic => Panic
    end.

(** Dereferencing a pointer that names no validator (nil) panics. *)
Definition load (v : loc) : M Validator.t :=
  fun h =>
    match h !! v with
    | Some st => Ok (st, h)
    | None => Panic
    end.

Definition store (v : loc) (st : Validator.t) : M unit :=
  fun h =>
    match h !! v with
    | Some _ => Ok (tt, <[v := st]> h)
    | None => Panic
    end.

(** [for k, x := range m { acc = body k x acc }]; each key is visited once,
    in an order the language leaves open. *)
Definition range {V A : Type} (m : gomap V) (body : string -> V -> A -> M A)
    (init : A) : M A :=
  map_fold (fun k x acc => a <- acc ;; body k x a) (ret init) (map_entries m).

(** [strings.Join]. *)
Fixpoint strings_Join (elems : list string) (sep : string) : string :=
  match elems with
  | [] => ""
  | [x] => x
  | x :: rest => x +:+ sep +:+ strings_Join rest sep
  end.

(** ** Structs of the chains *)

Module FieldValidation.
Record t (A : Type) : Type := mk { field : string; value : A; v : loc }.
Arguments mk {A}.
Arguments field {A}.
Arguments value {A}.
Arguments v {A}.
End FieldValidation.

Module Group.
Record t : Type := mk { name : string; v : loc }.
End Group.

Module When.
Record t (A : Type) : Type :=
  mk { condition : bool; field : string; value : A; v : loc }.
Arguments mk {A}.
Arguments condition {A}.
Arguments field {A}.
Arguments value {A}.
Arguments v {A}.
End When.

(** ** Validator *)

Definition StandaloneErrorKey : string := "__standalone__".

Definition New : M loc :=
  fun h =>
    let l := fresh (dom h) in
    Ok (l, <[l := Validator.mk make_map]> h).

(** The guard [if v.errors == nil { v.errors = make(...) }]. *)
Definition ensure_initialized (v : loc) : M unit :=
  st <- load v ;;
  match Validator.errors st with
  | None => store v (Validator.mk make_map)
  | Some _ => ret tt
  end.

Definition Validator_AddError (v : loc) (field message : string) : M unit :=
  _ <- ensure_initialized v ;;
  st <- load v ;;
  let old := fst (map_index [] (Validator.errors st) field) in
  m <- lift (map_assign (Validator.errors st) field
               (old ++ [ValidationError.mk field message])) ;;
  store v (Validator.mk m).

Definition Validator_AddStandaloneError (v : loc) (message : string) : M unit :=
  Validator_AddError v StandaloneErrorKey message.

Definition Validator_Check (v : loc) (valid : bool) (field message : string) : M bool :=
  if negb valid then
    _ <- Validator_AddError v field message ;;
    ret false
  else ret true.

Definition Validator_CheckStandalone (v : loc) (valid : bool) (message : string) : M bool :=
  if negb valid then
    _ <- Validator_AddStandaloneError v message ;;
    ret false
  else ret true.

Definition messages_of (errs : list ValidationError.t) : list string :=
  map ValidationError.Message errs.

Definition Validator_HasErrors (v : loc) : M bool :=
  st <- load v ;;
  ret (bool_decide (0 < map_len (Validator.errors st))).

Definition Validator_ErrorFor (v : loc) (field : string) : M string :=
  st <- load v ;;
  let '(errs, exists_) := map_index [] (Validator.errors st) field in
  if exists_ && bool_decide (0 < length errs) then
    ret (strings_Join (messages_of errs) ", ")
  else ret "".

Definition Validator_HasErrorFor (v : loc) (field : string) : M bool :=
  st <- load v ;;
  let '(errs, exists_) := map_index [] (Validator.errors st) field in
  ret (exists_ && bool_decide (0 < length errs)).

Definition Validator_HasStandaloneErrors (v : loc) : M bool :=
  Validator_HasErrorFor v StandaloneErrorKey.

Definition Validator_StandaloneErrors (v : loc) : M (list string) :=
  st <- load v ;;
  let '(errs, exists_) := map_index [] (Validator.errors st) StandaloneErrorKey in
  if exists_ then ret (messages_of errs) else ret [].

Definition Validator_Errors (v : loc) : M (gomap string) :=
  st <- load v ;;
  range (Validator.errors st)
    (fun field errs fields =>
       if bool_decide (0 < length errs) then
         s <- Validator_ErrorFor v field ;;
         lift (map_assign fields field s)
       else ret fields)
    make_map.

Definition Validator_ValidationErrors (v : loc) : M (gomap (list ValidationError.t)) :=
  st <- load v ;;
  ret (Validator.errors st).

Definition Validator_Merge (v other : loc) : M unit :=
  _ <- ensure_initialized v ;;
  o <- load other ;;
  range (Validator.errors o)
    (fun field errs _ =>
       st <- load v ;;
       let old := fst (map_index [] (Validator.errors st) field) in
       m <- lift (map_assign (Validator.errors st) field (old ++ errs)) ;;
       store v (Validator.mk m))
    tt.

Definition Validator_Clear (v : loc) : M unit :=
  store v (Validator.mk make_map).

(** [fmt.Sprintf] with the two formats [Error] uses. *)
Definition sprintf_global (s : string) : string := "global: [" +:+ s +:+ "]".

Definition sprintf_field (field s : string) : string := field +:+ ": [" +:+ s +:+ "]".

Definition Validator_Error (v : loc) : M string :=
  standalone <- Validator_StandaloneErrors v ;;
  let parts :=
    if bool_decide (0 < length standalone)
    then [sprintf_global (strings_Join standalone ", ")]
    else [] in
  st <- load v ;;
  parts <- range (Validator.errors st)
    (fun field errs parts =>
       if decide (field = StandaloneErrorKey) then ret parts
       else if bool_decide (0 < length errs) then
         ret (parts ++ [sprintf_field field (strings_Join (messages_of errs) ", ")])
       else ret parts)
    parts ;;
  ret (strings_Join parts " | ").

(** *** Serialization

    [encoding/json] is taken at the level of the document it writes: a JSON
    value, an object being a finite map from member names to values. *)

#[local] Unset Elimination Schemes.
Inductive json : Type :=
| JString (s : string)
| JObject (members : gmap string json).
#[local] Set Elimination Schemes.

(** [json.Marshal] of [struct { Errors map[string]string `json:"fields,omitempty"` }]:
    [omitempty] leaves the member out when the map has length zero. *)
Definition json_Marshal_fields (Errors : gomap string) : json :=
  if bool_decide (map_len Errors = 0) then JObject ∅
  else JObject {[ "fields" := JObject (JString <$> map_entries Errors) ]}.

(** [MarshalJSON]; encoding a [map[string]string] cannot fail, so the [error]
    it returns next to the document is always nil and is left out. *)
Definition Validator_MarshalJSON (v : loc) : M json :=
  st <- load v ;;
  fields <- range (Validator.errors st)
    (fun field errs fields =>
       if bool_decide (0 < length errs) then
         s <- Validator_ErrorFor v field ;;
         lift (map_assign fields field s)
       else ret fields)
    make_map ;;
  ret (json_Marshal_fields fields).




(** ** Field chain, group, conditional chain *)

Definition Validator_Field {A : Type} (v : loc) (name : string) (value : A)
    : FieldValidation.t A :=
  FieldValidation.mk name value v.

Definition FieldValidation_Check {A : Type} (f : FieldValidation.t A)
    (valid : bool) (message : string) : M (FieldValidation.t A) :=
  _ <- Validator_Check (FieldValidation.v f) valid (FieldValidation.field f) message ;;
  ret f.

Definition Validator_Group (v : loc) (name : string) : Group.t :=
  Group.mk name v.

Definition Group_Field {A : Type} (g : Group.t) (name : string) (value : A)
    : FieldValidation.t A :=
  let fullName := Group.name g +:+ "." +:+ name in
  Validator_Field (Group.v g) fullName value.

Definition FieldValidation_When {A : Type} (f : FieldValidation.t A)
    (condition : bool) : When.t A :=
  When.mk condition (FieldValidation.field f) (FieldValidation.value f)
    (FieldValidation.v f).

(** The [*When] methods change their receiver in place and return it; the
    receiver is threaded through the chain as the returned value. *)
Definition When_Check {A : Type} (w : When.t A) (valid : bool) (message : string)
    : M (When.t A) :=
  if When.condition w then
    _ <- Validator_Check (When.v w) valid (When.field w) message ;;
    ret w
  else ret w.

Definition When_When {A : Type} (w : When.t A) (condition : bool) : When.t A :=
  When.mk (When.condition w && condition) (When.field w) (When.value w) (When.v w).

(** ** Chains and call sequences as data *)

(** One link of a conditional chain: [.When(c)] or [.Check(valid, message)]. *)
Inductive link : Type :=
| LWhen (condition : bool)
| LCheck (valid : bool) (message : string).

Fixpoint run_chain {A : Type} (w : When.t A) (links : list link) : M (When.t A) :=
  match links with
  | [] => ret w
  | LWhen c :: rest => run_chain (When_When w c) rest
  | LCheck valid message :: rest =>
      w' <- When_Check w valid message ;;
      run_chain w' rest
  end.

(** The conditions passed to the [When] links of a chain, in call order. *)
Definition conditions (links : list link) : list bool :=
  omap (fun l => match l with LWhen c => Some c | LCheck _ _ => None end) links.

(** The mutating calls a client can issue on validators. *)
Inductive call : Type :=
| CallNew
| CallAddError (v : loc) (field message : string)
| CallAddStandaloneError (v : loc) (message : string)
| CallCheck (v : loc) (valid : bool) (field message : string)
| CallCheckStandalone (v : loc) (valid : bool) (message : string)
| CallMerge (v other : loc)
| CallClear (v : loc).

Definition exec (c : call) : M unit :=
  match c with
  | CallNew => _ <- New ;; ret tt
  | CallAddError v field message => Validator_AddError v field message
  | CallAddStandaloneError v message => Validator_AddStandaloneError v message
  | CallCheck v valid field message => _ <- Validator_Check v valid field message ;; ret tt
  | CallCheckStandalone v valid message => _ <- Validator_CheckStandalone v valid message ;; ret tt
  | CallMerge v other => Validator_Merge v other
  | CallClear v => Validator_Clear v
  end.

(** The heaps a program can build starting from nothing: every validator in
    them was made by [New]. *)
Inductive reachable : heap -> Prop :=
| reachable_empty : reachable ∅
| reachable_call (h h' : heap) (c : call) :
    reachable h -> exec c h = Ok (tt, h') -> reachable h'.

(** ** Notions used in the statements *)

(** The entries of a validator's store. *)
Definition entries_of (st : Validator.t) : gmap string (list ValidationError.t) :=
  map_entries (Validator.errors st).

(** The store after one more error for [field]. *)
Definition appended (g : gmap string (list ValidationError.t)) (field : string)
    (errs : list ValidationError.t) : gmap string (list ValidationError.t) :=
  <[field := default [] (g !! field) ++ errs]> g.

(** [mine] with every sequence of [theirs] appended after the sequence [mine]
    has for the same field. *)
Definition merged (mine theirs : gmap string (list ValidationError.t))
    : gmap string (list ValidationError.t) :=
  union_with (fun a b => Some (a ++ b)) mine theirs.

(** The joined message of a sequence, when it has at least one error. *)
Definition joined (errs : list ValidationError.t) : option string :=
  if bool_decide (0 < length errs)
  then Some (strings_Join (messages_of errs) ", ")
  else None.

(** The zero value of the [Validator] struct, and the value [New] builds. *)
Definition zero_Validator : Validator.t := Validator.mk None.

Definition new_Validator : Validator.t := Validator.mk make_map.

(** The store of a validator that has recorded [errs] for [field] only. *)
Definition only (field : string) (errs : list ValidationError.t) : Validator.t :=
  Validator.mk (Some {[ field := errs ]}).

(** No key of the store holds an empty sequence. *)
Definition store_nonempty (st : Validator.t) : Prop :=
  map_Forall (fun _ errs => errs <> []) (entries_of st).

Definition heap_nonempty (h : gmap positive Validator.t) : Prop :=
  map_Forall (fun _ st => store_nonempty st) h.

(** ** Scenarios of the specification, as the call sequences they are *)

(** [Check(false, field, msg)] for each message in turn. *)
Fixpoint check_each (v : loc) (field : string) (msgs : list string) : M unit :=
  match msgs with
  | [] => ret tt
  | msg :: rest =>
      _ <- Validator_Check v false field msg ;;
      check_each v field rest
  end.

(** [Check(false, field, msg_1) ... Check(false, field, msg_n)] on a fresh
    validator, then [ErrorFor(field)]. *)
Definition scenario_failed_checks (field : string) (msgs : list string) : M string :=
  v <- New ;;
  _ <- check_each v field msgs ;;
  Validator_ErrorFor v field.

(** [Field(f, val).When(true).Check(false, "a").When(false).Check(false, "b")
    .When(true).Check(false, "c")] on a fresh validator; the result is the
    list of messages recorded for [f]. *)
Definition scenario_mixed_conditions {A : Type} (f : string) (val : A)
    : M (list string) :=
  v <- New ;;
  w <- When_Check (FieldValidation_When (Validator_Field v f val) true) false "a" ;;
  w <- When_Check (When_When w false) false "b" ;;
  _ <- When_Check (When_When w true) false "c" ;;
  errs <- Validator_ValidationErrors v ;;
  ret (messages_of (fst (map_index [] errs f))).


(** [Group("user").Field("name", "").Check(false, "required")] on a fresh
    validator, then [HasErrorFor("user.name")] and [HasErrorFor("name")]. *)
Definition scenario_group : M (bool * bool) :=
  v <- New ;;
  _ <- FieldValidation_Check (Group_Field (Validator_Group v "user") "name" "")
         false "required" ;;
  a <- Validator_HasErrorFor v "user.name" ;;
  b <- Validator_HasErrorFor v "name" ;;
  ret (a, b).


(** A validator holding one error for one field, alone in the heap. *)
Definition heap_one_error : gmap positive Validator.t :=
  {[ 1%positive := only "f" [ValidationError.mk "f" "m"] ]}.

(** ** What a chain records, and what [Error] prints *)


(** The segment [Error] prints for a store entry: none for the standalone key
    and for an empty sequence. *)
Definition field_segment (entry : string * list ValidationError.t) : list string :=
  let '(field, errs) := entry in
  if decide (field = StandaloneErrorKey) then []
  else if bool_decide (0 < length errs) then
    [sprintf_field field (strings_Join (messages_of errs) ", ")]
  else [].

Definition field_segments (entries : list (string * list ValidationError.t))
    : list string :=
  concat (map field_segment entries).

(** The leading segment of [Error], present when there are standalone
    messages. *)
Definition global_segment (standalone : list string) : list string :=
  if bool_decide (0 < length standalone)
  then [sprintf_global (strings_Join standalone ", ")]
  else [].

(** Every error stored under a key names that key as its field. *)
Definition store_keyed (st : Validator.t) : Prop :=
  map_Forall
    (fun (k : string) (errs : list ValidationError.t) =>
       Forall (fun e => ValidationError.Field e = k) errs)
    (entries_of st).

(** ** Package [is]: predicates over dynamically typed values *)

(** The Go types the predicates are used at here.  An [int] is its value, a
    [time.Time] the instant it denotes (in nanoseconds), a slice the sequence
    of its elements.  Floating-point types are left out. *)
Inductive gotype : Type :=
| TInt
| TString
| TBool
| TTime
| TSlice (elem : gotype).

#[global] Instance gotype_eq_dec : EqDecision gotype.
Proof. solve_decision. Defined.

Fixpoint denote (t : gotype) : Type :=
  match t with
  | TInt => Z
  | TString => string
  | TBool => bool
  | TTime => Z
  | TSlice elem => list (denote elem)
  end.

(** [==] on values of a type. *)
Fixpoint denote_eq_dec (t : gotype) : EqDecision (denote t) :=
  match t with
  | TInt => (_ : EqDecision Z)
  | TString => (_ : EqDecision string)
  | TBool => (_ : EqDecision bool)
  | TTime => (_ : EqDecision Z)
  | TSlice elem => @list_eq_dec _ (denote_eq_dec elem)
  end.
#[global] Existing Instance denote_eq_dec.

(** Values of a type can be map keys. *)
Fixpoint denote_countable (t : gotype) : Countable (denote t) :=
  match t with
  | TInt => (_ : Countable Z)
  | TString => (_ : Countable string)
  | TBool => (_ : Countable bool)
  | TTime => (_ : Countable Z)
  | TSlice elem => @list_countable _ _ (denote_countable elem)
  end.
#[global] Existing Instance denote_countable.

(** An [any]: nil, or a value together with its dynamic type. *)
Definition any : Type := option {t : gotype & denote t}.

Definition to_any {t : gotype} (x : denote t) : any := Some (existT t x).

(** [v, ok := value.(T)]: succeeds exactly when the dynamic type is [T]. *)
Definition type_assert (t : gotype) (value : any) : option (denote t) :=
  match value with
  | None => None
  | Some (existT t' x) =>
      match decide (t' = t) with
      | left e => Some (eq_rect t' denote x t e)
      | right _ => None
      end
  end.

(** Modelled from the spec: the declaration of [ValidationFunc] is not among
    the sources; the specification gives a predicate the shape
    [(value) -> boolean]. *)
Definition ValidationFunc : Type := any -> bool.

(** [cmp.Ordered] / [constraints.Ordered]: the types with [<] and [<=]. *)
Class Ordered (t : gotype) : Type :=
  { ord_le : denote t -> denote t -> bool;
    ord_lt : denote t -> denote t -> bool }.

#[global] Instance Ordered_int : Ordered TInt :=
  Build_Ordered TInt Z.leb Z.ltb.

(** Go compares strings byte by byte. *)
#[global] Instance Ordered_string : Ordered TString :=
  Build_Ordered TString String.leb String.ltb.

Module Is.

Definition Between {t : gotype} `{Ordered t} (min max : denote t) : ValidationFunc :=
  fun value =>
    match type_assert t value with
    | None => false
    | Some v => ord_le min v && ord_le v max
    end.









Definition Min {t : gotype} `{Ordered t} (min : denote t) : ValidationFunc :=
  fun value =>
    match type_assert t value with
    | None => false
    | Some v => ord_le min v
    end.

Definition Max {t : gotype} `{Ordered t} (max : denote t) : ValidationFunc :=
  fun value =>
    match type_assert t value with
    | None => false
    | Some v => ord_le v max
    end.

Definition GreaterThan {t : gotype} `{Ordered t} (n : denote t) : ValidationFunc :=
  fun value =>
    match type_assert t value with
    | None => false
    | Some v => ord_lt n v
    end.

Definition LessThan {t : gotype} `{Ordered t} (n : denote t) : ValidationFunc :=
  fun value =>
    match type_assert t value with
    | None => false
    | Some v => ord_lt v n
    end.

Definition GreaterOrEqual {t : gotype} `{Ordered t} (n : denote t) : ValidationFunc :=
  fun value =>
    match type_assert t value with
    | None => false
    | Some v => ord_le n v
    end.

Definition LessOrEqual {t : gotype} `{Ordered t} (n : denote t) : ValidationFunc :=
  fun value =>
    match type_assert t value with
    | None => false
    | Some v => ord_le v n
    end.

(** [time.Time.Before] and [After] compare instants strictly. *)
Definition Before (t : denote TTime) : ValidationFunc :=
  fun value =>
    match type_assert TTime value with
    | None => false
    | Some v => Z.ltb v t
    end.

Definition After (t : denote TTime) : ValidationFunc :=
  fun value =>
    match type_assert TTime value with
    | None => false
    | Some v => Z.ltb t v
    end.

Definition BetweenTime (start end_ : denote TTime) : ValidationFunc :=
  fun value =>
    match type_assert TTime value with
    | None => false
    | Some v => Z.ltb start v && Z.ltb v end_
    end.

End Is.

(** The laws of [<] and [<=] the ordered types obey. *)
Record OrderedLaws (t : gotype) `{Ordered t} : Prop :=
  { ord_lt_le : forall a b : denote t, ord_lt a b = negb (ord_le b a);
    ord_le_refl : forall a : denote t, ord_le a a = true;
    ord_le_trans : forall a b c : denote t,
        ord_le a b = true -> ord_le b c = true -> ord_le a c = true }.

(** ** Basic facts about the runtime model *)

Lemma load_ok (h : heap) (v : loc) (st : Validator.t) :
  h !! v = Some st -> load v h = Ok (st, h).
Proof. intros E. unfold load. by rewrite E. Qed.

Lemma store_ok (h : heap) (v : loc) (st st' : Validator.t) :
  h !! v = Some st -> store v st' h = Ok (tt, <[v := st']> h).
Proof. intros E. unfold store. by rewrite E. Qed.

Lemma bind_ok {A B : Type} (m : M A) (k : A -> M B) (h h' : heap) (a : A) :
  m h = Ok (a, h') -> bind m k h = k a h'.
Proof. intros E. unfold bind. by rewrite E. Qed.

Lemma bind_panic {A B : Type} (m : M A) (k : A -> M B) (h : heap) :
  m h = Panic -> bind m k h = Panic.
Proof. intros E. unfold bind. by rewrite E. Qed.

Lemma entries_of_mk (g : gmap string (list ValidationError.t)) :
  entries_of (Validator.mk (Some g)) = g.
Proof. reflexivity. Qed.

Lemma map_index_fst {V : Type} (zero : V) (m : gomap V) (k : string) :
  fst (map_index zero m k) = default zero (map_entries m !! k).
Proof. unfold map_index. by destruct (map_entries m !! k). Qed.

Lemma ensure_initialized_ok (h : heap) (v : loc) (st : Validator.t) :
  h !! v = Some st ->
  ensure_initialized v h = Ok (tt, <[v := Validator.mk (Some (entries_of st))]> h).
Proof.
  intros E. unfold ensure_initialized.
  rewrite (bind_ok _ _ _ _ _ (load_ok _ _ _ E)).
  destruct st as [[g|]]; simpl.
  - unfold ret, entries_of. simpl. by rewrite insert_id.
  - by rewrite (store_ok _ _ _ _ E).
Qed.

Lemma Validator_AddError_ok (h : heap) (v : loc) (st : Validator.t)
    (field message : string) :
  h !! v = Some st ->
  Validator_AddError v field message h =
    Ok (tt, <[v := Validator.mk
                (Some (appended (entries_of st) field
                         [ValidationError.mk field message]))]> h).
Proof.
  intros E. unfold Validator_AddError.
  rewrite (bind_ok _ _ _ _ _ (ensure_initialized_ok _ _ _ E)).
  set (h1 := <[v := _]> h).
  assert (E1 : h1 !! v = Some (Validator.mk (Some (entries_of st))))
    by apply lookup_insert_eq.
  rewrite (bind_ok _ _ _ _ _ (load_ok _ _ _ E1)). simpl.
  unfold bind at 1. unfold lift. simpl.
  rewrite (store_ok _ _ _ _ E1). subst h1.
  rewrite insert_insert_eq. unfold appended.
  by rewrite map_index_fst.
Qed.

Lemma Validator_AddError_panic (h : heap) (v : loc) (field message : string) :
  h !! v = None -> Validator_AddError v field message h = Panic.
Proof.
  intros E. unfold Validator_AddError, ensure_initialized.
  apply bind_panic, bind_panic. unfold load. by rewrite E.
Qed.

Lemma Validator_Check_ok (h : heap) (v : loc) (st : Validator.t)
    (valid : bool) (field message : string) :
  h !! v = Some st ->
  Validator_Check v valid field message h =
    Ok (valid,
        if valid then h
        else <[v := Validator.mk
                 (Some (appended (entries_of st) field
                          [ValidationError.mk field message]))]> h).
Proof.
  intros E. unfold Validator_Check. destruct valid; simpl; [done|].
  by rewrite (bind_ok _ _ _ _ _ (Validator_AddError_ok _ _ _ field message E)).
Qed.

Lemma Validator_ErrorFor_ok (h : heap) (v : loc) (st : Validator.t) (field : string) :
  h !! v = Some st ->
  Validator_ErrorFor v field h =
    Ok (strings_Join (messages_of (default [] (entries_of st !! field))) ", ", h).
Proof.
  intros E. unfold Validator_ErrorFor.
  rewrite (bind_ok _ _ _ _ _ (load_ok _ _ _ E)).
  unfold map_index, entries_of.
  destruct (map_entries (Validator.errors st) !! field) as [[|e errs]|]; done.
Qed.

Lemma Validator_HasErrorFor_ok (h : heap) (v : loc) (st : Validator.t) (field : string) :
  h !! v = Some st ->
  Validator_HasErrorFor v field h =
    Ok (bool_decide (default [] (entries_of st !! field) <> []), h).
Proof.
  intros E. unfold Validator_HasErrorFor.
  rewrite (bind_ok _ _ _ _ _ (load_ok _ _ _ E)).
  unfold map_index, entries_of.
  destruct (map_entries (Validator.errors st) !! field) as [[|e errs]|]; done.
Qed.

(** ** Conditional chains *)

Section chains.
Context {A : Type}.
Implicit Types (w : When.t A) (f : FieldValidation.t A).

Lemma run_chain_app w (l1 l2 : list link) (h : heap) :
  run_chain w (l1 ++ l2) h = (w' <- run_chain w l1 ;; run_chain w' l2) h.
Proof.
  revert w h. induction l1 as [|[c|valid message] l1 IH]; intros w h; simpl.
  - done.
  - apply IH.
  - unfold bind in *. destruct (When_Check w valid message h) as [[w' h']|]; [|done].
    apply IH.
Qed.

Lemma When_Check_ok w (valid : bool) (message : string) (h : heap)
    (st : Validator.t) :
  h !! When.v w = Some st ->
  When_Check w valid message h =
    Ok (w,
        if When.condition w && negb valid then
          <[When.v w := Validator.mk
              (Some (appended (entries_of st) (When.field w)
                       [ValidationError.mk (When.field w) message]))]> h
        else h).
Proof.
  intros E. unfold When_Check. destruct (When.condition w); simpl; [|done].
  rewrite (bind_ok _ _ _ _ _ (Validator_Check_ok _ _ _ valid (When.field w) message E)).
  by destruct valid.
Qed.

(** A chain run on an existing validator never panics; it leaves the chain's
    field, value and validator alone and narrows the condition by every
    [When] link. *)
Lemma run_chain_ok w (links : list link) (h : heap) (st : Validator.t) :
  h !! When.v w = Some st ->
  exists (h' : heap) (st' : Validator.t),
    run_chain w links h =
      Ok (When.mk (When.condition w && forallb id (conditions links))
            (When.field w) (When.value w) (When.v w), h')
    /\ h' !! When.v w = Some st'.
Proof.
  revert w h st. induction links as [|[c|valid message] links IH]; intros w h st E.
  - exists h, st. split; [|done]. destruct w as [[] ? ? ?]; done.
  - simpl. destruct (IH (When_When w c) h st E) as (h' & st' & R & E').
    exists h', st'. split; [|done]. rewrite R. simpl.
    by rewrite andb_assoc.
  - simpl. rewrite (bind_ok _ _ _ _ _ (When_Check_ok w valid message h st E)).
    set (h1 := if When.condition w && negb valid then _ else h).
    assert (exists st1, h1 !! When.v w = Some st1) as [st1 E1].
    { subst h1. destruct (When.condition w && negb valid); [|eauto].
      eexists. apply lookup_insert_eq. }
    destruct (IH w h1 st1 E1) as (h' & st' & R & E'). eauto.
Qed.

(** Once the running condition is false, nothing later in the chain
    touches the heap, and the condition stays false. *)
Lemma run_chain_false w (links : list link) (h : heap) :
  When.condition w = false ->
  run_chain w links h =
    Ok (When.mk false (When.field w) (When.value w) (When.v w), h).
Proof.
  revert w. induction links as [|[c|valid message] links IH]; intros w E.
  - destruct w; simpl in *; by subst.
  - simpl. rewrite IH; [done|]. simpl. by rewrite E.
  - simpl. unfold When_Check. rewrite E. by apply IH.
Qed.
End chains.

Lemma New_ok (h : heap) :
  New h = Ok (fresh (dom h), <[fresh (dom h) := new_Validator]> h)
  /\ h !! fresh (dom h) = None.
Proof.
  split; [done|]. apply not_elem_of_dom, is_fresh.
Qed.

(** ** Checks, chains and groups *)

(** C4. On any existing validator, whatever its state, [Check] returns [valid]
    itself and never panics; with [valid] false the heap changes only at this
    validator, whose sequence for [field] (the empty one if the key was
    absent) gets [ValidationError{field, message}] appended; with [valid] true
    the heap is the same afterwards. *)
Theorem C4_Check_returns_valid_and_records (h : heap) (v : loc) (st : Validator.t)
    (valid : bool) (field message : string) :
  h !! v = Some st ->
  Validator_Check v valid field message h =
    Ok (valid,
        if valid then h
        else <[v := Validator.mk
                 (Some (<[field := default [] (entries_of st !! field)
                                     ++ [ValidationError.mk field message]]>
                          (entries_of st)))]> h).
Proof. apply Validator_Check_ok. Qed.

Lemma C4_witness :
  Validator_Check 1 false "email" "required" {[ 1%positive := zero_Validator ]} =
    Ok (false,
        {[ 1%positive :=
             Validator.mk
               (Some {[ "email" := [ValidationError.mk "email" "required"] ]}) ]}).
Proof.
  etrans.
  - apply (C4_Check_returns_valid_and_records
             {[ 1%positive := zero_Validator ]} 1 zero_Validator false
             "email" "required").
    vm_compute. reflexivity.
  - vm_compute. reflexivity.
Defined.

(** C1. Take a chain [Field(..).When(c0)] followed by the links [pre], then
    [Check(valid, message)], then [rest], on an existing validator.  The
    links before the [Check] run without panic and leave the running
    condition at the conjunction of [c0] and the conditions of the [When]
    links in [pre].  The [Check] forwards to the validator's [Check] (which
    records the error exactly when [valid] is false) if that conjunction is
    true and does nothing otherwise; and once it is false, the remainder of
    the chain leaves the heap as it is and the condition false. *)
Theorem C1_conditional_chain {A : Type} (f : FieldValidation.t A) (c0 : bool)
    (pre rest : list link) (valid : bool) (message : string)
    (h : heap) (st : Validator.t) :
  h !! FieldValidation.v f = Some st ->
  let running := c0 && forallb id (conditions pre) in
  exists (w : When.t A) (h1 : heap) (st1 : Validator.t),
    run_chain (FieldValidation_When f c0) pre h = Ok (w, h1)
    /\ h1 !! FieldValidation.v f = Some st1
    /\ When.condition w = running
    /\ run_chain (FieldValidation_When f c0) (pre ++ LCheck valid message :: rest) h =
         (w' <- When_Check w valid message ;; run_chain w' rest) h1
    /\ When_Check w valid message h1 =
         (if running then
            (_ <- Validator_Check (FieldValidation.v f) valid
                    (FieldValidation.field f) message ;; ret w) h1
          else Ok (w, h1))
    /\ (running = true ->
        When_Check w valid message h1 =
          Ok (w,
              if valid then h1
              else <[FieldValidation.v f :=
                       Validator.mk
                         (Some (<[FieldValidation.field f :=
                                    default [] (entries_of st1 !! FieldValidation.field f)
                                      ++ [ValidationError.mk (FieldValidation.field f) message]]>
                                  (entries_of st1)))]> h1))
    /\ (running = false ->
        forall later : list link,
          exists w' : When.t A,
            run_chain w (LCheck valid message :: later) h1 = Ok (w', h1)
            /\ When.condition w' = false).
Proof.
  intros E running.
  destruct (run_chain_ok (FieldValidation_When f c0) pre h st E)
    as (h1 & st1 & R & E1). simpl in R, E1. fold running in R.
  eexists _, h1, st1. split; [exact R|]. split; [exact E1|]. split; [done|].
  split.
  { rewrite run_chain_app. by rewrite (bind_ok _ _ _ _ _ R). }
  split.
  { unfold When_Check. simpl. by destruct running. }
  split.
  - intros Hrun.
    rewrite (When_Check_ok _ valid message h1 st1) by exact E1.
    simpl. rewrite Hrun. by destruct valid.
  - intros Hrun later. eexists. split.
    + rewrite run_chain_false; [reflexivity|done].
    + done.
Qed.

Lemma C1_witness :
  exists (w : When.t unit) (h1 : heap),
    run_chain
      (FieldValidation_When (Validator_Field 1%positive "role" tt) true)
      [LCheck false "role required"; LWhen false] {[ 1%positive := new_Validator ]}
      = Ok (w, h1)
    /\ When.condition w = false
    /\ When_Check w false "invalid role" h1 = Ok (w, h1).
Proof.
  assert (E : ({[ 1%positive := new_Validator ]} : heap) !! 1%positive
               = Some new_Validator) by (vm_compute; reflexivity).
  destruct (C1_conditional_chain (Validator_Field 1%positive "role" tt) true
              [LCheck false "role required"; LWhen false] [] false "invalid role"
              {[ 1%positive := new_Validator ]} new_Validator E)
    as (w & h1 & st1 & R & _ & C & _ & F & _).
  exists w, h1. split; [exact R|]. split; [exact C|]. exact F.
Defined.

Lemma appended_empty (field : string) (errs : list ValidationError.t) :
  appended ∅ field errs = {[ field := errs ]}.
Proof. unfold appended. by rewrite lookup_empty. Qed.

Lemma scenario_mixed_conditions_ok {A : Type} (f : string) (val : A) (h : heap) :
  scenario_mixed_conditions f val h =
    Ok (["a"], <[fresh (dom h) := only f [ValidationError.mk f "a"]]> h).
Proof.
  unfold scenario_mixed_conditions.
  destruct (New_ok h) as [N _]. rewrite (bind_ok _ _ _ _ _ N).
  set (l := fresh (dom h)).
  set (w0 := FieldValidation_When (Validator_Field l f val) true).
  assert (E0 : (<[l := new_Validator]> h) !! When.v w0 = Some new_Validator)
    by apply lookup_insert_eq.
  rewrite (bind_ok _ _ _ _ _ (When_Check_ok w0 false "a" _ _ E0)).
  simpl. rewrite insert_insert_eq.
  unfold entries_of. simpl. rewrite appended_empty. fold (only f [ValidationError.mk f "a"]).
  unfold bind at 1. simpl. unfold bind at 1. simpl.
  unfold Validator_ValidationErrors.
  assert (E1 : (<[l := only f [ValidationError.mk f "a"]]> h) !! l
               = Some (only f [ValidationError.mk f "a"]))
    by apply lookup_insert_eq.
  rewrite (bind_ok _ _ _ _ _ (bind_ok _ _ _ _ _ (load_ok _ _ _ E1))).
  unfold ret. rewrite map_index_fst. simpl. by rewrite lookup_singleton_eq.
Qed.

(** C2 (as stated, refuted). On the empty heap with field ["f"], the messages
    recorded by the scenario are not [["a"; "c"]]. *)
Lemma C2_counterexample :
  ~ exists h' : heap,
      scenario_mixed_conditions "f" "" ∅ = Ok (["a"; "c"], h').
Proof.
  intros [h' H]. rewrite scenario_mixed_conditions_ok in H. discriminate H.
Qed.

(** C2 (amended). After [Field(f, val).When(true).Check(false, "a")
    .When(false).Check(false, "b").When(true).Check(false, "c")] on a fresh
    validator, the messages recorded for [f] are exactly [["a"]]: "a" is
    recorded, and neither "b" nor "c" is, the running condition being false
    from [When(false)] on. *)
Theorem C2_mixed_conditions_records_only_a {A : Type} (f : string) (val : A)
    (h : heap) :
  scenario_mixed_conditions f val h =
    Ok (["a"],
        <[fresh (dom h) :=
            Validator.mk (Some {[ f := [ValidationError.mk f "a"] ]})]> h).
Proof. apply scenario_mixed_conditions_ok. Qed.


(** C8. A group's [Field] is the owning validator's [Field] under the name
    [g + "." + n]; and on a fresh validator
    [Group("user").Field("name", "").Check(false, "required")] makes
    [HasErrorFor("user.name")] true and leaves [HasErrorFor("name")] false. *)
Theorem C8_group_namespacing :
  (forall (A : Type) (v : loc) (g n : string) (val : A),
      Group_Field (Validator_Group v g) n val
      = Validator_Field v (g +:+ "." +:+ n) val)
  /\ (forall h : heap,
        scenario_group h =
          Ok ((true, false),
              <[fresh (dom h) :=
                  Validator.mk
                    (Some {[ "user.name" :=
                               [ValidationError.mk "user.name" "required"] ]})]> h)).
Proof.
  split; [done|]. intros h.
  unfold scenario_group.
  destruct (New_ok h) as [N _]. rewrite (bind_ok _ _ _ _ _ N).
  set (l := fresh (dom h)).
  assert (E0 : (<[l := new_Validator]> h) !! l = Some new_Validator)
    by apply lookup_insert_eq.
  unfold FieldValidation_Check. simpl.
  rewrite (bind_ok _ _ _ _ _
             (bind_ok _ _ _ _ _ (Validator_Check_ok _ _ _ false "user.name" "required" E0))).
  rewrite insert_insert_eq. unfold entries_of. simpl. rewrite appended_empty.
  set (e := [ValidationError.mk "user.name" "required"]).
  assert (E1 : (<[l := only "user.name" e]> h) !! l = Some (only "user.name" e))
    by apply lookup_insert_eq.
  rewrite (bind_ok _ _ _ _ _ (Validator_HasErrorFor_ok _ _ _ "user.name" E1)).
  rewrite (bind_ok _ _ _ _ _ (Validator_HasErrorFor_ok _ _ _ "name" E1)).
  unfold entries_of. simpl.
  rewrite lookup_singleton_eq, lookup_singleton_ne by done. done.
Qed.

Lemma check_each_ok (v : loc) (field : string) (msgs : list string)
    (h : heap) (st : Validator.t) :
  h !! v = Some st ->
  exists (h' : heap) (st' : Validator.t),
    check_each v field msgs h = Ok (tt, h')
    /\ h' !! v = Some st'
    /\ default [] (entries_of st' !! field) =
         default [] (entries_of st !! field) ++ map (ValidationError.mk field) msgs.
Proof.
  revert h st. induction msgs as [|msg msgs IH]; intros h st E.
  - exists h, st. simpl. by rewrite app_nil_r.
  - simpl. rewrite (bind_ok _ _ _ _ _ (Validator_Check_ok _ _ _ false field msg E)).
    edestruct IH as (h' & st' & R & E' & L); [apply lookup_insert_eq|].
    exists h', st'. split; [exact R|]. split; [exact E'|].
    rewrite L. unfold entries_of at 1. simpl. unfold appended.
    rewrite lookup_insert_eq. simpl. by rewrite <- app_assoc.
Qed.

Lemma messages_of_mk (field : string) (msgs : list string) :
  messages_of (map (ValidationError.mk field) msgs) = msgs.
Proof.
  unfold messages_of. rewrite map_map. simpl. apply map_id.
Qed.

(** C5. After [Check(false, field, msg_1) ... Check(false, field, msg_n)] on a
    fresh validator, [ErrorFor(field)] is [msg_1, ..., msg_n] joined by [", "]
    in call order; and on any validator, a field for which [HasErrorFor] is
    false has the empty string as its [ErrorFor]. *)
Theorem C5_ErrorFor_joins_in_call_order :
  (forall (h : heap) (field : string) (msgs : list string),
      exists h' : heap,
        scenario_failed_checks field msgs h = Ok (strings_Join msgs ", ", h'))
  /\ (forall (h : heap) (v : loc) (field : string),
        Validator_HasErrorFor v field h = Ok (false, h) ->
        Validator_ErrorFor v field h = Ok ("", h)).
Proof.
  split.
  - intros h field msgs. unfold scenario_failed_checks.
    destruct (New_ok h) as [N _]. rewrite (bind_ok _ _ _ _ _ N).
    edestruct (check_each_ok (fresh (dom h)) field msgs) as (h' & st' & R & E' & L);
      [apply lookup_insert_eq|].
    exists h'. rewrite (bind_ok _ _ _ _ _ R).
    rewrite (Validator_ErrorFor_ok _ _ _ field E'), L.
    unfold entries_of, new_Validator. simpl. rewrite lookup_empty. simpl.
    by rewrite messages_of_mk.
  - intros h v field H.
    destruct (h !! v) as [st|] eqn:E.
    + rewrite (Validator_HasErrorFor_ok _ _ _ field E) in H.
      rewrite (Validator_ErrorFor_ok _ _ _ field E).
      injection H as H. apply bool_decide_eq_false in H.
      destruct (default [] (entries_of st !! field)); [done|].
      exfalso. by apply H.
    + unfold Validator_HasErrorFor in H.
      rewrite bind_panic in H; [done|]. unfold load. by rewrite E.
Qed.

Lemma C5_witness :
  Validator_ErrorFor 1 "email" {[ 1%positive := new_Validator ]} =
    Ok ("", {[ 1%positive := new_Validator ]}).
Proof.
  apply (proj2 C5_ErrorFor_joins_in_call_order).
  vm_compute. reflexivity.
Defined.

(** ** Merge *)

Lemma merged_lookup (mine theirs : gmap string (list ValidationError.t)) (f : string) :
  merged mine theirs !! f =
    match theirs !! f with
    | Some errs => Some (default [] (mine !! f) ++ errs)
    | None => mine !! f
    end.
Proof.
  unfold merged. rewrite lookup_union_with.
  by destruct (mine !! f), (theirs !! f).
Qed.

Lemma merged_insert (mine theirs : gmap string (list ValidationError.t))
    (f : string) (errs : list ValidationError.t) :
  theirs !! f = None ->
  appended (merged mine theirs) f errs = merged mine (<[f := errs]> theirs).
Proof.
  intros E. apply map_eq. intros j. unfold appended.
  destruct (decide (f = j)) as [<-|N].
  - rewrite lookup_insert_eq, !merged_lookup, lookup_insert_eq, E. done.
  - rewrite lookup_insert_ne by done.
    rewrite !merged_lookup. by rewrite lookup_insert_ne.
Qed.

Lemma merged_empty (mine : gmap string (list ValidationError.t)) :
  merged mine ∅ = mine.
Proof.
  apply map_eq. intros j. by rewrite merged_lookup, lookup_empty.
Qed.

Lemma merge_loop_ok (v : loc) (theirs : gomap (list ValidationError.t))
    (h : heap) (g : gmap string (list ValidationError.t)) :
  h !! v = Some (Validator.mk (Some g)) ->
  range theirs
    (fun field errs _ =>
       st <- load v ;;
       let old := fst (map_index [] (Validator.errors st) field) in
       m <- lift (map_assign (Validator.errors st) field (old ++ errs)) ;;
       store v (Validator.mk m))
    tt h
  = Ok (tt, <[v := Validator.mk (Some (merged g (map_entries theirs)))]> h).
Proof.
  intros E. unfold range.
  apply (map_fold_weak_ind
           (fun (r : M unit) (m : gmap string (list ValidationError.t)) =>
              r h = Ok (tt, <[v := Validator.mk (Some (merged g m))]> h))).
  - unfold ret. rewrite merged_empty. by rewrite insert_id.
  - intros i x m r Hi IH.
    rewrite (bind_ok _ _ _ _ _ IH).
    set (h1 := <[v := _]> h).
    assert (E1 : h1 !! v = Some (Validator.mk (Some (merged g m))))
      by apply lookup_insert_eq.
    rewrite (bind_ok _ _ _ _ _ (load_ok _ _ _ E1)). simpl.
    unfold bind at 1. unfold lift. simpl.
    rewrite (store_ok _ _ _ _ E1). subst h1. rewrite insert_insert_eq.
    rewrite map_index_fst. simpl.
    by rewrite <- (merged_insert g m i x Hi).
Qed.

Lemma Validator_Merge_ok (h : heap) (v other : loc) (st so : Validator.t) :
  h !! v = Some st -> h !! other = Some so ->
  Validator_Merge v other h =
    Ok (tt, <[v := Validator.mk (Some (merged (entries_of st) (entries_of so)))]> h).
Proof.
  intros E Eo. unfold Validator_Merge.
  rewrite (bind_ok _ _ _ _ _ (ensure_initialized_ok _ _ _ E)).
  set (h1 := <[v := _]> h).
  assert (E1 : h1 !! v = Some (Validator.mk (Some (entries_of st))))
    by apply lookup_insert_eq.
  assert (exists o, h1 !! other = Some o /\ entries_of o = entries_of so)
    as (o & Eo1 & Ho).
  { destruct (decide (v = other)) as [<-|N].
    - exists (Validator.mk (Some (entries_of st))). split; [done|].
      rewrite E in Eo. by injection Eo as <-.
    - exists so. split; [|done]. subst h1. by rewrite lookup_insert_ne. }
  rewrite (bind_ok _ _ _ _ _ (load_ok _ _ _ Eo1)).
  etrans; [apply (merge_loop_ok v (Validator.errors o) h1 (entries_of st) E1)|].
  subst h1. rewrite insert_insert_eq. unfold entries_of in Ho. by rewrite Ho.
Qed.

Lemma Validator_Merge_panic (h : heap) (v other : loc) :
  h !! v = None \/ h !! other = None -> Validator_Merge v other h = Panic.
Proof.
  intros H. unfold Validator_Merge.
  destruct (h !! v) as [st|] eqn:E.
  - destruct H as [H|H]; [done|].
    rewrite (bind_ok _ _ _ _ _ (ensure_initialized_ok _ _ _ E)).
    apply bind_panic. unfold load.
    rewrite lookup_insert_ne; [by rewrite H|]. intros ->. congruence.
  - apply bind_panic. unfold ensure_initialized. apply bind_panic.
    unfold load. by rewrite E.
Qed.




(** ** The store invariant *)

Lemma store_nonempty_new : store_nonempty new_Validator.
Proof.
  intros k errs H. unfold entries_of, new_Validator, make_map in H.
  simpl in H. by rewrite lookup_empty in H.
Qed.

Lemma store_nonempty_appended (st : Validator.t) (field : string)
    (errs : list ValidationError.t) :
  store_nonempty st -> errs <> [] ->
  store_nonempty (Validator.mk (Some (appended (entries_of st) field errs))).
Proof.
  intros I N. unfold store_nonempty. rewrite entries_of_mk.
  apply map_Forall_insert_2; [|exact I].
  intros [_ H]%app_eq_nil. done.
Qed.

Lemma store_nonempty_merged (st so : Validator.t) :
  store_nonempty st -> store_nonempty so ->
  store_nonempty (Validator.mk (Some (merged (entries_of st) (entries_of so)))).
Proof.
  intros I Io. unfold store_nonempty. rewrite entries_of_mk.
  intros f errs. rewrite merged_lookup.
  destruct (entries_of so !! f) as [e|] eqn:E.
  - intros [= <-]. intros [_ H]%app_eq_nil. by apply (Io f e).
  - apply I.
Qed.

Lemma Validator_Check_preserves (h h' : heap) (v : loc) (valid b : bool)
    (field message : string) :
  heap_nonempty h ->
  Validator_Check v valid field message h = Ok (b, h') ->
  heap_nonempty h'.
Proof.
  intros I R. destruct (h !! v) as [st|] eqn:E.
  - rewrite (Validator_Check_ok _ _ _ valid field message E) in R.
    injection R as _ <-. destruct valid; [done|].
    apply map_Forall_insert_2; [|done].
    apply store_nonempty_appended; [by apply (I v)|done].
  - destruct valid; [by injection R as _ <-|].
    unfold Validator_Check in R. simpl in R.
    rewrite bind_panic in R; [done|]. by apply Validator_AddError_panic.
Qed.

Lemma Validator_AddError_preserves (h h' : heap) (v : loc) (field message : string) :
  heap_nonempty h ->
  Validator_AddError v field message h = Ok (tt, h') ->
  heap_nonempty h'.
Proof.
  intros I R. apply (Validator_Check_preserves h h' v false false field message I).
  unfold Validator_Check. simpl. by rewrite (bind_ok _ _ _ _ _ R).
Qed.

Lemma bind_ret_tt_inv {A : Type} (m : M A) (h h' : heap) :
  (_ <- m ;; ret tt) h = Ok (tt, h') -> exists a, m h = Ok (a, h').
Proof.
  unfold bind, ret. destruct (m h) as [[a h1]|]; [|done].
  intros [= <-]. eauto.
Qed.

Lemma exec_preserves (c : call) (h h' : heap) :
  heap_nonempty h -> exec c h = Ok (tt, h') -> heap_nonempty h'.
Proof.
  intros I R. destruct c as [|v f m|v m|v b f m|v b m|v o|v]; simpl in R.
  - apply bind_ret_tt_inv in R as [l R]. injection R as _ <-.
    apply map_Forall_insert_2; [apply store_nonempty_new|done].
  - by apply (Validator_AddError_preserves h h' v f m).
  - by apply (Validator_AddError_preserves h h' v StandaloneErrorKey m).
  - apply bind_ret_tt_inv in R as [r R].
    by apply (Validator_Check_preserves h h' v b r f m).
  - apply bind_ret_tt_inv in R as [r R].
    by apply (Validator_Check_preserves h h' v b r StandaloneErrorKey m).
  - destruct (h !! v) as [st|] eqn:E; [destruct (h !! o) as [so|] eqn:Eo|].
    + rewrite (Validator_Merge_ok _ _ _ _ _ E Eo) in R. injection R as <-.
      apply map_Forall_insert_2; [|done].
      apply store_nonempty_merged; [by apply (I v)|by apply (I o)].
    + rewrite Validator_Merge_panic in R by auto. done.
    + rewrite Validator_Merge_panic in R by auto. done.
  - unfold Validator_Clear, store in R.
    destruct (h !! v); [|done]. injection R as <-.
    apply map_Forall_insert_2; [apply store_nonempty_new|done].
Qed.

Lemma reachable_nonempty (h : heap) : reachable h -> heap_nonempty h.
Proof.
  induction 1 as [|h h' c _ IH R].
  - apply map_Forall_empty.
  - by apply (exec_preserves c h h').
Qed.

Lemma Validator_HasErrors_ok (h : heap) (v : loc) (st : Validator.t) :
  h !! v = Some st ->
  Validator_HasErrors v h = Ok (bool_decide (0 < size (entries_of st)), h).
Proof.
  intros E. unfold Validator_HasErrors.
  by rewrite (bind_ok _ _ _ _ _ (load_ok _ _ _ E)).
Qed.

(** C7. In every heap built from nothing by [New], [AddError],
    [AddStandaloneError], [Check], [CheckStandalone], [Merge] and [Clear]
    calls, every key of every validator's store maps to a non-empty
    sequence; and [HasErrors] returns true exactly when the store has a key
    with a non-empty sequence. *)
Theorem C7_store_keys_have_errors (h : heap) (v : loc) (st : Validator.t) :
  reachable h -> h !! v = Some st ->
  (forall (k : string) (errs : list ValidationError.t),
      entries_of st !! k = Some errs -> errs <> [])
  /\ exists b : bool,
       Validator_HasErrors v h = Ok (b, h)
       /\ (b = true <->
           exists (k : string) (errs : list ValidationError.t),
             entries_of st !! k = Some errs /\ errs <> []).
Proof.
  intros R E.
  assert (I : store_nonempty st) by apply (reachable_nonempty h R v st E).
  split; [exact I|].
  eexists. split; [apply (Validator_HasErrors_ok _ _ _ E)|].
  rewrite bool_decide_eq_true. split.
  - intros S.
    destruct (map_choose (entries_of st)) as (k & errs & Hk).
    { apply map_size_non_empty_iff. lia. }
    exists k, errs. split; [done|]. by apply (I k).
  - intros (k & errs & Hk & _).
    assert (size (entries_of st) <> 0); [|lia].
    apply map_size_non_empty_iff. intros Hm. by rewrite Hm in Hk.
Qed.

Lemma reachable_heap_one_error : reachable heap_one_error.
Proof.
  apply (reachable_call {[ 1%positive := new_Validator ]} _ (CallAddError 1 "f" "m")).
  - apply (reachable_call ∅ _ CallNew); [apply reachable_empty|].
    vm_compute. reflexivity.
  - vm_compute. reflexivity.
Defined.

Lemma C7_witness :
  exists b : bool,
    Validator_HasErrors 1 heap_one_error = Ok (b, heap_one_error)
    /\ (b = true <->
        exists (k : string) (errs : list ValidationError.t),
          entries_of (only "f" [ValidationError.mk "f" "m"]) !! k = Some errs
          /\ errs <> []).
Proof.
  assert (E : heap_one_error !! 1%positive
              = Some (only "f" [ValidationError.mk "f" "m"]))
    by (vm_compute; reflexivity).
  exact (proj2 (C7_store_keys_have_errors heap_one_error 1 _
                  reachable_heap_one_error E)).
Defined.

(** ** Errors and serialization *)

Lemma fields_loop_sub (v : loc) (h : heap) (st : Validator.t)
    (m : gmap string (list ValidationError.t)) :
  h !! v = Some st ->
  m ⊆ entries_of st ->
  map_fold
    (fun (field : string) (errs : list ValidationError.t) (acc : M (gomap string)) =>
       fields <- acc ;;
       if bool_decide (0 < length errs) then
         s <- Validator_ErrorFor v field ;;
         lift (map_assign fields field s)
       else ret fields)
    (ret make_map) m h
  = Ok (Some (omap joined m), h).
Proof.
  intros E.
  apply (map_fold_weak_ind
           (fun (r : M (gomap string)) (m : gmap string (list ValidationError.t)) =>
              m ⊆ entries_of st -> r h = Ok (Some (omap joined m), h))).
  - intros _. unfold ret, make_map. by rewrite omap_empty.
  - clear m. intros i x m r Hi IH Hsub.
    assert (Hm : m ⊆ entries_of st).
    { etrans; [apply (insert_subseteq m i x Hi)|exact Hsub]. }
    assert (Hx : entries_of st !! i = Some x).
    { apply (lookup_weaken (<[i := x]> m)); [apply lookup_insert_eq|exact Hsub]. }
    rewrite (bind_ok _ _ _ _ _ (IH Hm)).
    destruct (bool_decide (0 < length x)) eqn:Hlen.
    + rewrite (bind_ok _ _ _ _ _ (Validator_ErrorFor_ok _ _ _ i E)).
      rewrite Hx. simpl.
      rewrite (omap_insert_Some joined m i x (strings_Join (messages_of x) ", ")).
      * done.
      * unfold joined. by rewrite Hlen.
    + rewrite omap_insert_None by (unfold joined; by rewrite Hlen).
      rewrite delete_id; [done|]. by rewrite lookup_omap, Hi.
Qed.

Lemma fields_loop_ok (v : loc) (h : heap) (st : Validator.t) :
  h !! v = Some st ->
  range (Validator.errors st)
    (fun field errs fields =>
       if bool_decide (0 < length errs) then
         s <- Validator_ErrorFor v field ;;
         lift (map_assign fields field s)
       else ret fields)
    make_map h
  = Ok (Some (omap joined (entries_of st)), h).
Proof.
  intros E. unfold range. by apply (fields_loop_sub v h st _ E).
Qed.

Lemma Validator_Errors_ok (h : heap) (v : loc) (st : Validator.t) :
  h !! v = Some st ->
  Validator_Errors v h = Ok (Some (omap joined (entries_of st)), h).
Proof.
  intros E. unfold Validator_Errors.
  rewrite (bind_ok _ _ _ _ _ (load_ok _ _ _ E)).
  apply (fields_loop_ok v h st E).
Qed.

Lemma Validator_MarshalJSON_ok (h : heap) (v : loc) (st : Validator.t) :
  h !! v = Some st ->
  Validator_MarshalJSON v h =
    Ok (json_Marshal_fields (Some (omap joined (entries_of st))), h).
Proof.
  intros E. unfold Validator_MarshalJSON.
  rewrite (bind_ok _ _ _ _ _ (load_ok _ _ _ E)).
  by rewrite (bind_ok _ _ _ _ _ (fields_loop_ok v h st E)).
Qed.







(** ** The zero value *)

Lemma merged_empty_l (theirs : gmap string (list ValidationError.t)) :
  merged ∅ theirs = theirs.
Proof.
  apply map_eq. intros j. rewrite merged_lookup, lookup_empty.
  by destruct (theirs !! j).
Qed.

Lemma range_nil {V A : Type} (body : string -> V -> A -> M A) (init : A) :
  range None body init = ret init.
Proof. unfold range. simpl. apply map_fold_empty. Qed.

Section zero_value.
Variables (h : gmap positive Validator.t) (v : positive).
Hypothesis Hzero : h !! v = Some zero_Validator.

Lemma zero_AddError (field message : string) :
  Validator_AddError v field message h =
    Ok (tt, <[v := only field [ValidationError.mk field message]]> h).
Proof.
  rewrite (Validator_AddError_ok _ _ _ field message Hzero).
  unfold entries_of. simpl. by rewrite appended_empty.
Qed.

Lemma new_AddError (field message : string) :
  Validator_AddError v field message (<[v := new_Validator]> h) =
    Ok (tt, <[v := only field [ValidationError.mk field message]]> h).
Proof.
  erewrite Validator_AddError_ok by apply lookup_insert_eq.
  rewrite insert_insert_eq. unfold entries_of. simpl.
  by rewrite appended_empty.
Qed.

Lemma zero_Merge (other : positive) (so : Validator.t) :
  h !! other = Some so ->
  Validator_Merge v other h =
    Ok (tt, <[v := Validator.mk (Some (entries_of so))]> h).
Proof.
  intros Eo. rewrite (Validator_Merge_ok _ _ _ _ _ Hzero Eo).
  unfold entries_of at 1. simpl. by rewrite merged_empty_l.
Qed.

Lemma new_Merge (other : positive) (so : Validator.t) :
  h !! other = Some so ->
  Validator_Merge v other (<[v := new_Validator]> h) =
    Ok (tt, <[v := Validator.mk (Some (entries_of so))]> h).
Proof.
  intros Eo.
  assert (exists o, (<[v := new_Validator]> h) !! other = Some o
                    /\ entries_of o = entries_of so) as (o & Eo' & Ho).
  { destruct (decide (v = other)) as [<-|N].
    - exists new_Validator. split; [apply lookup_insert_eq|].
      rewrite Hzero in Eo. by injection Eo as <-.
    - exists so. split; [|done]. by rewrite lookup_insert_ne. }
  erewrite Validator_Merge_ok; [|apply lookup_insert_eq|exact Eo'].
  rewrite insert_insert_eq, Ho.
  unfold entries_of at 1. simpl. by rewrite merged_empty_l.
Qed.

Lemma zero_Merge_into (other : positive) (so : Validator.t) :
  h !! other = Some so ->
  Validator_Merge other v h =
    Ok (tt, <[other := Validator.mk (Some (entries_of so))]> h).
Proof.
  intros Eo. rewrite (Validator_Merge_ok _ _ _ _ _ Eo Hzero).
  unfold entries_of at 2. simpl. by rewrite merged_empty.
Qed.

Lemma zero_observers :
  Validator_HasErrors v h = Ok (false, h)
  /\ Validator_HasStandaloneErrors v h = Ok (false, h)
  /\ Validator_StandaloneErrors v h = Ok ([], h)
  /\ Validator_ValidationErrors v h = Ok (None, h)
  /\ Validator_Errors v h = Ok (Some ∅, h)
  /\ Validator_Error v h = Ok ("", h)
  /\ Validator_MarshalJSON v h = Ok (JObject ∅, h)
  /\ (forall field : string,
        Validator_HasErrorFor v field h = Ok (false, h)
        /\ Validator_ErrorFor v field h = Ok ("", h)).
Proof.
  assert (L : load v h = Ok (zero_Validator, h)) by apply (load_ok _ _ _ Hzero).
  assert (F : forall field, Validator_HasErrorFor v field h = Ok (false, h)).
  { intros field. by rewrite (Validator_HasErrorFor_ok _ _ _ field Hzero). }
  assert (S : Validator_StandaloneErrors v h = Ok ([], h)).
  { unfold Validator_StandaloneErrors. by rewrite (bind_ok _ _ _ _ _ L). }
  split. { by rewrite (Validator_HasErrors_ok _ _ _ Hzero). }
  split. { apply F. }
  split. { exact S. }
  split. { unfold Validator_ValidationErrors. by rewrite (bind_ok _ _ _ _ _ L). }
  split. { unfold Validator_Errors. rewrite (bind_ok _ _ _ _ _ L). simpl.
           by rewrite range_nil. }
  split. { unfold Validator_Error. rewrite (bind_ok _ _ _ _ _ S). simpl.
           rewrite (bind_ok _ _ _ _ _ L). simpl. by rewrite range_nil. }
  split. { unfold Validator_MarshalJSON. rewrite (bind_ok _ _ _ _ _ L). simpl.
           by rewrite range_nil. }
  intros field. split; [apply F|].
  by rewrite (Validator_ErrorFor_ok _ _ _ field Hzero).
Qed.
End zero_value.

(** C10. Let [v] be a zero-valued validator (nil map) in the heap.  [AddError]
    and [Merge] with [v] as receiver initialise the store and end in the very
    heap they end in when [v] was made by [New], so whatever the program does
    next does the same in both cases.  No method panics on the zero value:
    the mutators and [Merge] in either position return, and every reader
    returns what it returns on an empty validator ([ValidationErrors] hands
    out the nil map itself). *)
Theorem C10_zero_value_usable (h : heap) (v : loc) :
  h !! v = Some zero_Validator ->
  (forall field message : string,
      Validator_AddError v field message h =
        Ok (tt, <[v := Validator.mk
                    (Some {[ field := [ValidationError.mk field message] ]})]> h)
      /\ forall (B : Type) (k : M B),
           (_ <- Validator_AddError v field message ;; k) h =
           (_ <- Validator_AddError v field message ;; k) (<[v := new_Validator]> h))
  /\ (forall (other : loc) (so : Validator.t),
        h !! other = Some so ->
        Validator_Merge v other h =
          Ok (tt, <[v := Validator.mk (Some (entries_of so))]> h)
        /\ (forall (B : Type) (k : M B),
              (_ <- Validator_Merge v other ;; k) h =
              (_ <- Validator_Merge v other ;; k) (<[v := new_Validator]> h))
        /\ Validator_Merge other v h =
             Ok (tt, <[other := Validator.mk (Some (entries_of so))]> h))
  /\ (forall (valid : bool) (field message : string),
        (exists h' : heap, Validator_Check v valid field message h = Ok (valid, h'))
        /\ (exists h' : heap, Validator_CheckStandalone v valid message h = Ok (valid, h'))
        /\ (exists h' : heap, Validator_AddStandaloneError v message h = Ok (tt, h')))
  /\ Validator_Clear v h = Ok (tt, <[v := new_Validator]> h)
  /\ Validator_HasErrors v h = Ok (false, h)
  /\ Validator_HasStandaloneErrors v h = Ok (false, h)
  /\ Validator_StandaloneErrors v h = Ok ([], h)
  /\ Validator_ValidationErrors v h = Ok (None, h)
  /\ Validator_Errors v h = Ok (Some ∅, h)
  /\ Validator_Error v h = Ok ("", h)
  /\ Validator_MarshalJSON v h = Ok (JObject ∅, h)
  /\ (forall field : string,
        Validator_HasErrorFor v field h = Ok (false, h)
        /\ Validator_ErrorFor v field h = Ok ("", h)).
Proof.
  intros Hzero.
  split.
  { intros field message. split; [apply (zero_AddError h v Hzero)|].
    intros B k.
    rewrite (bind_ok _ _ _ _ _ (zero_AddError h v Hzero field message)).
    by rewrite (bind_ok _ _ _ _ _ (new_AddError h v field message)). }
  split.
  { intros other so Eo. split; [apply (zero_Merge h v Hzero other so Eo)|].
    split; [|apply (zero_Merge_into h v Hzero other so Eo)].
    intros B k.
    rewrite (bind_ok _ _ _ _ _ (zero_Merge h v Hzero other so Eo)).
    by rewrite (bind_ok _ _ _ _ _ (new_Merge h v Hzero other so Eo)). }
  split.
  { intros valid field message. split; [|split].
    - eexists. apply (Validator_Check_ok _ _ _ valid field message Hzero).
    - eexists. apply (Validator_Check_ok _ _ _ valid StandaloneErrorKey message Hzero).
    - eexists. apply (zero_AddError h v Hzero). }
  split.
  { apply (store_ok _ _ _ _ Hzero). }
  apply (zero_observers h v Hzero).
Qed.

Lemma C10_witness :
  Validator_AddError 1 "email" "required" {[ 1%positive := zero_Validator ]} =
    Ok (tt, {[ 1%positive :=
                 Validator.mk
                   (Some {[ "email" := [ValidationError.mk "email" "required"] ]}) ]})
  /\ Validator_Error 1 {[ 1%positive := zero_Validator ]} =
       Ok ("", {[ 1%positive := zero_Validator ]}).
Proof.
  assert (E : ({[ 1%positive := zero_Validator ]} : heap) !! 1%positive
              = Some zero_Validator) by (vm_compute; reflexivity).
  destruct (C10_zero_value_usable _ 1 E)
    as (A & _ & _ & _ & _ & _ & _ & _ & _ & R & _).
  split; [|exact R].
  etrans; [apply (proj1 (A "email" "required"))|].
  vm_compute. reflexivity.
Defined.


(** ** Standalone errors, [Error] and [Clear] *)

Lemma Validator_StandaloneErrors_ok (h : heap) (v : loc) (st : Validator.t) :
  h !! v = Some st ->
  Validator_StandaloneErrors v h =
    Ok (messages_of (default [] (entries_of st !! StandaloneErrorKey)), h).
Proof.
  intros E. unfold Validator_StandaloneErrors.
  rewrite (bind_ok _ _ _ _ _ (load_ok _ _ _ E)).
  unfold map_index, entries_of.
  by destruct (map_entries (Validator.errors st) !! StandaloneErrorKey).
Qed.

(** A loop whose body only computes runs to the end and leaves the heap. *)
Lemma range_pure {V A : Type} (m : gomap V) (body : string -> V -> A -> M A)
    (g : string -> V -> A -> A) (init : A) (h : heap) :
  (forall k x a, body k x a h = Ok (g k x a, h)) ->
  range m body init h =
    Ok (foldr (fun kx a => g kx.1 kx.2 a) init (map_to_list (map_entries m)), h).
Proof.
  intros Hbody. unfold range. rewrite map_fold_foldr.
  induction (map_to_list (map_entries m)) as [|[k x] l IH]; simpl; [done|].
  by rewrite (bind_ok _ _ _ _ _ IH).
Qed.

Lemma field_segments_app (l1 l2 : list (string * list ValidationError.t)) :
  field_segments (l1 ++ l2) = field_segments l1 ++ field_segments l2.
Proof. unfold field_segments. by rewrite map_app, concat_app. Qed.

Lemma foldr_segments (parts : list string)
    (l : list (string * list ValidationError.t)) :
  foldr (fun kx a => a ++ field_segment kx) parts l =
    parts ++ field_segments (reverse l).
Proof.
  induction l as [|kx l IH]; simpl.
  - unfold field_segments. simpl. by rewrite app_nil_r.
  - rewrite IH, reverse_cons, field_segments_app, <- app_assoc. f_equal. f_equal.
    unfold field_segments. simpl. by rewrite app_nil_r.
Qed.

Lemma Validator_Error_ok (h : heap) (v : loc) (st : Validator.t) :
  h !! v = Some st ->
  Validator_Error v h =
    Ok (strings_Join
          (global_segment (messages_of (default [] (entries_of st !! StandaloneErrorKey)))
           ++ field_segments (reverse (map_to_list (entries_of st))))
          " | ", h).
Proof.
  intros E. unfold Validator_Error.
  rewrite (bind_ok _ _ _ _ _ (Validator_StandaloneErrors_ok _ _ _ E)).
  rewrite (bind_ok _ _ _ _ _ (load_ok _ _ _ E)).
  erewrite bind_ok; cycle 1.
  { apply (range_pure _ _ (fun k errs a => a ++ field_segment (k, errs))).
    intros k errs a. unfold field_segment.
    destruct (decide (k = StandaloneErrorKey)); [by rewrite app_nil_r|].
    destruct (bool_decide (0 < length errs)); [done|by rewrite app_nil_r]. }
  unfold ret. f_equal. f_equal. f_equal.
  etrans; [|apply foldr_segments].
  apply foldr_ext; [|done..]. by intros [k errs] a.
Qed.

Lemma new_observers (h : heap) (v : loc) :
  h !! v = Some new_Validator ->
  Validator_HasErrors v h = Ok (false, h)
  /\ Validator_StandaloneErrors v h = Ok ([], h)
  /\ Validator_Errors v h = Ok (Some ∅, h)
  /\ Validator_Error v h = Ok ("", h)
  /\ Validator_MarshalJSON v h = Ok (JObject ∅, h)
  /\ (forall field : string,
        Validator_HasErrorFor v field h = Ok (false, h)
        /\ Validator_ErrorFor v field h = Ok ("", h)).
Proof.
  intros E.
  split. { by rewrite (Validator_HasErrors_ok _ _ _ E). }
  split. { by rewrite (Validator_StandaloneErrors_ok _ _ _ E). }
  split. { rewrite (Validator_Errors_ok _ _ _ E).
           unfold entries_of, new_Validator. simpl. by rewrite omap_empty. }
  split. { rewrite (Validator_Error_ok _ _ _ E).
           unfold entries_of, new_Validator. simpl.
           by rewrite lookup_empty, map_to_list_empty. }
  split. { rewrite (Validator_MarshalJSON_ok _ _ _ E).
           unfold entries_of, new_Validator. simpl. by rewrite omap_empty. }
  intros field. split.
  - by rewrite (Validator_HasErrorFor_ok _ _ _ field E).
  - by rewrite (Validator_ErrorFor_ok _ _ _ field E).
Qed.

(** X1. [Clear] on any existing validator, whatever it holds, succeeds and
    leaves it as [New] makes one: afterwards [HasErrors] is false, [Errors]
    is the empty map, [Error] the empty string, there are no standalone
    messages, every field has no error, the serialized document is [{}];
    other validators are untouched and a second [Clear] changes nothing. *)
Theorem X1_Clear_resets (h : heap) (v : loc) (st : Validator.t) :
  h !! v = Some st ->
  exists h' : heap,
    Validator_Clear v h = Ok (tt, h')
    /\ h' !! v = Some new_Validator
    /\ (forall u : loc, u <> v -> h' !! u = h !! u)
    /\ Validator_Clear v h' = Ok (tt, h')
    /\ Validator_HasErrors v h' = Ok (false, h')
    /\ Validator_StandaloneErrors v h' = Ok ([], h')
    /\ Validator_Errors v h' = Ok (Some ∅, h')
    /\ Validator_Error v h' = Ok ("", h')
    /\ Validator_MarshalJSON v h' = Ok (JObject ∅, h')
    /\ (forall field : string,
          Validator_HasErrorFor v field h' = Ok (false, h')
          /\ Validator_ErrorFor v field h' = Ok ("", h')).
Proof.
  intros E. exists (<[v := new_Validator]> h).
  assert (E' : (<[v := new_Validator]> h) !! v = Some new_Validator)
    by apply lookup_insert_eq.
  split; [apply (store_ok _ _ _ _ E)|].
  split; [exact E'|].
  split. { intros u Hu. by rewrite lookup_insert_ne. }
  split. { unfold Validator_Clear. rewrite (store_ok _ _ _ _ E').
           by rewrite insert_insert_eq. }
  apply (new_observers _ _ E').
Qed.

Lemma X1_witness :
  exists h' : heap,
    Validator_Clear 1 heap_one_error = Ok (tt, h')
    /\ Validator_Error 1 h' = Ok ("", h').
Proof.
  assert (E : heap_one_error !! 1%positive
              = Some (only "f" [ValidationError.mk "f" "m"]))
    by (vm_compute; reflexivity).
  destruct (X1_Clear_resets heap_one_error 1 _ E)
    as (h' & C & _ & _ & _ & _ & _ & _ & R & _).
  exists h'. split; [exact C|exact R].
Defined.

(** X2. [Error] on any existing validator returns the segments joined with
    [" | "]: first ["global: [..]"] with the standalone messages, when there
    are any, then one ["field: [..]"] segment for each store entry other than
    the standalone key that has at least one error, carrying that field's
    messages in insertion order; the entries are taken in some order of the
    store. *)
Theorem X2_Error_format (h : heap) (v : loc) (st : Validator.t) :
  h !! v = Some st ->
  exists order : list (string * list ValidationError.t),
    order ≡ₚ map_to_list (entries_of st)
    /\ Validator_Error v h =
         Ok (strings_Join
               (global_segment
                  (messages_of (default [] (entries_of st !! StandaloneErrorKey)))
                ++ field_segments order)
               " | ", h).
Proof.
  intros E. exists (reverse (map_to_list (entries_of st))).
  split; [apply reverse_Permutation|]. apply (Validator_Error_ok _ _ _ E).
Qed.

Lemma X2_witness :
  exists order : list (string * list ValidationError.t),
    order ≡ₚ [("f", [ValidationError.mk "f" "m"])]
    /\ Validator_Error 1 heap_one_error =
         Ok (strings_Join (field_segments order) " | ", heap_one_error).
Proof.
  assert (E : heap_one_error !! 1%positive
              = Some (only "f" [ValidationError.mk "f" "m"]))
    by (vm_compute; reflexivity).
  destruct (X2_Error_format heap_one_error 1 _ E) as (order & P & R).
  exists order. split; [|exact R].
  etrans; [exact P|]. unfold entries_of, only. simpl.
  by rewrite map_to_list_singleton.
Defined.

(** X3. The standalone key is read like any field: [ErrorFor] of the key is
    the [StandaloneErrors] list joined with [", "], and [HasStandaloneErrors]
    is true exactly when that list is not empty. *)
Theorem X3_standalone_readers_agree (h : heap) (v : loc) (st : Validator.t) :
  h !! v = Some st ->
  exists standalone : list string,
    Validator_StandaloneErrors v h = Ok (standalone, h)
    /\ Validator_ErrorFor v StandaloneErrorKey h =
         Ok (strings_Join standalone ", ", h)
    /\ Validator_HasStandaloneErrors v h =
         Ok (bool_decide (standalone <> []), h).
Proof.
  intros E. eexists.
  split; [apply (Validator_StandaloneErrors_ok _ _ _ E)|].
  split; [apply (Validator_ErrorFor_ok _ _ _ _ E)|].
  unfold Validator_HasStandaloneErrors.
  rewrite (Validator_HasErrorFor_ok _ _ _ _ E). f_equal. f_equal.
  destruct (default [] (entries_of st !! StandaloneErrorKey)); done.
Qed.

Lemma X3_witness :
  exists standalone : list string,
    Validator_StandaloneErrors 1 heap_one_error = Ok (standalone, heap_one_error)
    /\ Validator_ErrorFor 1 StandaloneErrorKey heap_one_error =
         Ok (strings_Join standalone ", ", heap_one_error).
Proof.
  assert (E : heap_one_error !! 1%positive
              = Some (only "f" [ValidationError.mk "f" "m"]))
    by (vm_compute; reflexivity).
  destruct (X3_standalone_readers_agree heap_one_error 1 _ E) as (s & A & B & _).
  exists s. split; [exact A|exact B].
Defined.

(** X4. [CheckStandalone] returns [valid] and never panics on an existing
    validator.  With [valid] true the heap is unchanged.  With [valid] false
    the message goes to the end of the standalone list, [HasStandaloneErrors]
    and [HasErrors] become true, and [ErrorFor] of every other field is what
    it was. *)
Theorem X4_CheckStandalone (h : heap) (v : loc) (st : Validator.t)
    (valid : bool) (message : string) :
  h !! v = Some st ->
  exists (h' : heap) (before : list string),
    Validator_CheckStandalone v valid message h = Ok (valid, h')
    /\ Validator_StandaloneErrors v h = Ok (before, h)
    /\ (valid = true -> h' = h)
    /\ (valid = false ->
        Validator_StandaloneErrors v h' = Ok (before ++ [message], h')
        /\ Validator_HasStandaloneErrors v h' = Ok (true, h')
        /\ Validator_HasErrors v h' = Ok (true, h')
        /\ forall (field s : string),
             field <> StandaloneErrorKey ->
             Validator_ErrorFor v field h = Ok (s, h) ->
             Validator_ErrorFor v field h' = Ok (s, h')).
Proof.
  intros E. eexists _, _.
  split; [apply (Validator_Check_ok _ _ _ valid StandaloneErrorKey message E)|].
  split; [apply (Validator_StandaloneErrors_ok _ _ _ E)|].
  split; [by intros ->|]. intros ->.
  set (st' := Validator.mk _).
  assert (E' : (<[v := st']> h) !! v = Some st') by apply lookup_insert_eq.
  assert (L : entries_of st' !! StandaloneErrorKey =
              Some (default [] (entries_of st !! StandaloneErrorKey)
                    ++ [ValidationError.mk StandaloneErrorKey message])).
  { subst st'. rewrite entries_of_mk. unfold appended. apply lookup_insert_eq. }
  split.
  { rewrite (Validator_StandaloneErrors_ok _ _ _ E'), L. simpl.
    unfold messages_of. by rewrite map_app. }
  split.
  { unfold Validator_HasStandaloneErrors.
    rewrite (Validator_HasErrorFor_ok _ _ _ _ E'), L. simpl.
    f_equal. f_equal. apply bool_decide_eq_true. by intros [_ ?]%app_eq_nil. }
  split.
  { rewrite (Validator_HasErrors_ok _ _ _ E'). f_equal. f_equal.
    apply bool_decide_eq_true.
    assert (size (entries_of st') <> 0); [|lia].
    apply map_size_non_empty_iff. intros Hm. by rewrite Hm in L. }
  intros field s N H.
  rewrite (Validator_ErrorFor_ok _ _ _ field E) in H. injection H as <-.
  rewrite (Validator_ErrorFor_ok _ _ _ field E'). f_equal. f_equal.
  subst st'. rewrite entries_of_mk. unfold appended.
  by rewrite lookup_insert_ne.
Qed.

Lemma X4_witness :
  exists h' : heap,
    Validator_CheckStandalone 1 false "down" heap_one_error = Ok (false, h')
    /\ Validator_StandaloneErrors 1 h' = Ok (["down"], h').
Proof.
  assert (E : heap_one_error !! 1%positive
              = Some (only "f" [ValidationError.mk "f" "m"]))
    by (vm_compute; reflexivity).
  destruct (X4_CheckStandalone heap_one_error 1 _ false "down" E)
    as (h' & before & C & B & _ & F).
  exists h'. split; [exact C|].
  destruct (F eq_refl) as (S & _).
  assert (before = []) as ->; [|exact S].
  vm_compute in B. by injection B as <-.
Defined.

(** X5. [Errors] agrees with the per-field readers: a field is a key of the
    map [Errors] returns exactly when [HasErrorFor] is true for it, and the
    value under the key is what [ErrorFor] returns. *)
Theorem X5_Errors_agrees_with_field_readers (h : heap) (v : loc) (st : Validator.t) :
  h !! v = Some st ->
  exists fields : gmap string string,
    Validator_Errors v h = Ok (Some fields, h)
    /\ forall field : string,
         Validator_HasErrorFor v field h =
           Ok (bool_decide (is_Some (fields !! field)), h)
         /\ forall s : string,
              fields !! field = Some s ->
              Validator_ErrorFor v field h = Ok (s, h).
Proof.
  intros E. exists (omap joined (entries_of st)).
  split; [apply (Validator_Errors_ok _ _ _ E)|]. intros field.
  rewrite (Validator_HasErrorFor_ok _ _ _ field E),
          (Validator_ErrorFor_ok _ _ _ field E), lookup_omap.
  unfold joined.
  destruct (entries_of st !! field) as [[|e errs]|]; simpl;
    (split; [done|]); [done| |done].
  by intros s [= <-].
Qed.

Lemma X5_witness :
  exists fields : gmap string string,
    Validator_Errors 1 heap_one_error = Ok (Some fields, heap_one_error)
    /\ Validator_HasErrorFor 1 "f" heap_one_error =
         Ok (bool_decide (is_Some (fields !! "f")), heap_one_error).
Proof.
  assert (E : heap_one_error !! 1%positive
              = Some (only "f" [ValidationError.mk "f" "m"]))
    by (vm_compute; reflexivity).
  destruct (X5_Errors_agrees_with_field_readers heap_one_error 1 _ E)
    as (fields & R & F).
  exists fields. split; [exact R|]. apply (F "f").
Defined.

(** ** What chains, merges and groups add up to *)



(** X7. Merging an existing validator into a fresh one makes a copy: the new
    validator holds exactly the entries of the source, which is left as it
    was.  Merging a fresh validator into an existing one leaves the entries of
    the receiver as they were (a nil store becomes an empty one). *)
Theorem X7_Merge_with_fresh (h : heap) (v : loc) (st : Validator.t) :
  h !! v = Some st ->
  (c <- New ;; _ <- Validator_Merge c v ;; ret c) h =
    Ok (fresh (dom h),
        <[fresh (dom h) := Validator.mk (Some (entries_of st))]> h)
  /\ (<[fresh (dom h) := Validator.mk (Some (entries_of st))]> h) !! v = Some st
  /\ (c <- New ;; Validator_Merge v c) h =
       Ok (tt, <[v := Validator.mk (Some (entries_of st))]>
                 (<[fresh (dom h) := new_Validator]> h)).
Proof.
  intros E. destruct (New_ok h) as [N Hfresh].
  set (c := fresh (dom h)) in *.
  assert (Hne : c <> v) by (intros ->; congruence).
  assert (Ec : (<[c := new_Validator]> h) !! c = Some new_Validator)
    by apply lookup_insert_eq.
  assert (Ev : (<[c := new_Validator]> h) !! v = Some st)
    by (by rewrite lookup_insert_ne).
  split; [|split].
  - rewrite (bind_ok _ _ _ _ _ N).
    rewrite (bind_ok _ _ _ _ _ (Validator_Merge_ok _ _ _ _ _ Ec Ev)).
    unfold ret. rewrite insert_insert_eq.
    unfold entries_of at 1. simpl. by rewrite merged_empty_l.
  - by rewrite lookup_insert_ne.
  - rewrite (bind_ok _ _ _ _ _ N).
    rewrite (Validator_Merge_ok _ _ _ _ _ Ev Ec).
    unfold entries_of at 2. simpl. by rewrite merged_empty.
Qed.

Lemma X7_witness :
  (c <- New ;; _ <- Validator_Merge c 1 ;; ret c) heap_one_error =
    Ok (2%positive,
        {[ 1%positive := only "f" [ValidationError.mk "f" "m"];
           2%positive := only "f" [ValidationError.mk "f" "m"] ]}).
Proof.
  assert (E : heap_one_error !! 1%positive
              = Some (only "f" [ValidationError.mk "f" "m"]))
    by (vm_compute; reflexivity).
  etrans; [apply (proj1 (X7_Merge_with_fresh heap_one_error 1 _ E))|].
  vm_compute. reflexivity.
Defined.

Lemma string_app_assoc (a b c : string) : (a +:+ b) +:+ c = a +:+ (b +:+ c).
Proof.
  induction a as [|x a IH]; [done|].
  change (String x ((a +:+ b) +:+ c) = String x (a +:+ (b +:+ c))).
  by rewrite IH.
Qed.

(** X8. Group names are joined to field names with a dot and nothing is
    escaped: a group whose name ends in [.n] with field [m] names the same
    field, and records into the same key, as the group without that ending
    with field [n.m]. *)
Theorem X8_group_names_not_escaped {A : Type} (v : loc) (g n m : string)
    (val : A) (valid : bool) (message : string) (h : heap) :
  Group_Field (Validator_Group v (g +:+ "." +:+ n)) m val
  = Group_Field (Validator_Group v g) (n +:+ "." +:+ m) val
  /\ FieldValidation_Check
       (Group_Field (Validator_Group v (g +:+ "." +:+ n)) m val) valid message h
     = FieldValidation_Check
         (Group_Field (Validator_Group v g) (n +:+ "." +:+ m) val) valid message h.
Proof.
  assert (Group_Field (Validator_Group v (g +:+ "." +:+ n)) m val
          = Group_Field (Validator_Group v g) (n +:+ "." +:+ m) val) as ->; [|done].
  unfold Group_Field, Validator_Group, Validator_Field.
  cbn [Group.name Group.v]. f_equal.
  by rewrite (string_app_assoc g ("." +:+ n) ("." +:+ m)).
Qed.

(** ** Package [is] *)

Lemma type_assert_to_any (t : gotype) (x : denote t) :
  type_assert t (to_any x) = Some x.
Proof.
  unfold type_assert, to_any. destruct (decide (t = t)) as [e|N]; [|done].
  by rewrite (proof_irrel e eq_refl).
Qed.










Lemma OrderedLaws_int : OrderedLaws TInt.
Proof.
  split; simpl.
  - intros a b. apply Z.ltb_antisym.
  - intros a. apply Z.leb_refl.
  - intros a b c ?%Z.leb_le ?%Z.leb_le. apply Z.leb_le. lia.
Qed.

Lemma string_compare_refl (s : string) : String.compare s s = Eq.
Proof.
  induction s as [|x s IH]; simpl; [done|].
  unfold Ascii.compare. by rewrite N.compare_refl.
Qed.

Lemma string_compare_lt_trans (a b c : string) :
  String.compare a b = Lt -> String.compare b c = Lt -> String.compare a c = Lt.
Proof.
  revert b c. induction a as [|x a IH]; intros [|y b] [|z c]; simpl; try done.
  unfold Ascii.compare.
  destruct (N.compare_spec (Ascii.N_of_ascii x) (Ascii.N_of_ascii y)) as [Exy|Lxy|Gxy],
           (N.compare_spec (Ascii.N_of_ascii y) (Ascii.N_of_ascii z)) as [Eyz|Lyz|Gyz],
           (N.compare_spec (Ascii.N_of_ascii x) (Ascii.N_of_ascii z)) as [Exz|Lxz|Gxz];
    try done; try lia.
  apply IH.
Qed.

Lemma OrderedLaws_string : OrderedLaws TString.
Proof.
  split; simpl.
  - intros a b. unfold String.ltb, String.leb.
    rewrite String.compare_antisym. by destruct (String.compare b a).
  - intros a. unfold String.leb. by rewrite string_compare_refl.
  - intros a b c. unfold String.leb.
    destruct (String.compare a b) eqn:Eab; [| |done].
    + apply String.compare_eq_iff in Eab as ->. done.
    + destruct (String.compare b c) eqn:Ebc; [| |done].
      * apply String.compare_eq_iff in Ebc as <-. by rewrite Eab.
      * by rewrite (string_compare_lt_trans a b c Eab Ebc).
Qed.

(** X13. [Between(min, max)] is [Min(min)] and [Max(max)] together, with both
    bounds accepted; [GreaterOrEqual] is [Min] and [LessOrEqual] is [Max].  On
    a value of type [T], [GreaterThan(n)] is the negation of [LessOrEqual(n)]
    and [LessThan(n)] that of [GreaterOrEqual(n)]; on nil or a value of
    another type all of them are false, the negations too. *)
Theorem X13_order_predicates {t : gotype} `{Ordered t} (n min max : denote t)
    (value : any) :
  OrderedLaws t ->
  Is.Between min max value = Is.Min min value && Is.Max max value
  /\ Is.GreaterOrEqual n value = Is.Min n value
  /\ Is.LessOrEqual n value = Is.Max n value
  /\ Is.GreaterThan n value =
       bool_decide (is_Some (type_assert t value)) && negb (Is.LessOrEqual n value)
  /\ Is.LessThan n value =
       bool_decide (is_Some (type_assert t value)) && negb (Is.GreaterOrEqual n value)
  /\ Is.Between min min (to_any min) = true.
Proof.
  intros L.
  unfold Is.Between, Is.Min, Is.Max, Is.GreaterOrEqual, Is.LessOrEqual,
    Is.GreaterThan, Is.LessThan.
  rewrite type_assert_to_any, (ord_le_refl t L min).
  destruct (type_assert t value) as [v|]; simpl; [|done].
  by rewrite !(ord_lt_le t L).
Qed.

Lemma X13_witness :
  Is.GreaterThan (t := TInt) 10%Z (to_any (t := TString) "x") = false
  /\ Is.LessOrEqual (t := TInt) 10%Z (to_any (t := TString) "x") = false
  /\ Is.GreaterThan (t := TInt) 10%Z (to_any (t := TInt) 15%Z) = true.
Proof.
  destruct (X13_order_predicates (t := TInt) 10%Z 0%Z 0%Z
              (to_any (t := TString) "x") OrderedLaws_int)
    as (_ & _ & _ & G & _).
  destruct (X13_order_predicates (t := TInt) 10%Z 0%Z 0%Z
              (to_any (t := TInt) 15%Z) OrderedLaws_int)
    as (_ & _ & _ & G' & _).
  split; [|split].
  - rewrite G. vm_compute. reflexivity.
  - vm_compute. reflexivity.
  - rewrite G'. vm_compute. reflexivity.
Defined.

(** X14. [Between(min, max)] with [max] below [min] accepts nothing; with
    [min] not above [max] it accepts both bounds. *)
Theorem X14_Between_bounds {t : gotype} `{Ordered t} (min max : denote t) :
  OrderedLaws t ->
  (ord_lt max min = true -> forall value : any, Is.Between min max value = false)
  /\ (ord_le min max = true ->
      Is.Between min max (to_any min) = true
      /\ Is.Between min max (to_any max) = true).
Proof.
  intros L. unfold Is.Between. split.
  - intros Hlt value. destruct (type_assert t value) as [v|]; [|done].
    rewrite (ord_lt_le t L) in Hlt. apply negb_true_iff in Hlt.
    destruct (ord_le min v) eqn:E1; [|done].
    destruct (ord_le v max) eqn:E2; [|done].
    by rewrite (ord_le_trans t L min v max E1 E2) in Hlt.
  - intros Hle. rewrite !type_assert_to_any, Hle, !(ord_le_refl t L). done.
Qed.

Lemma X14_witness :
  Is.Between (t := TString) "b" "a" (to_any (t := TString) "a") = false
  /\ Is.Between (t := TInt) 10%Z 20%Z (to_any (t := TInt) 20%Z) = true.
Proof.
  split.
  - apply (proj1 (X14_Between_bounds (t := TString) "b" "a" OrderedLaws_string)).
    vm_compute. reflexivity.
  - apply (proj2 (X14_Between_bounds (t := TInt) 10%Z 20%Z OrderedLaws_int)).
    vm_compute. reflexivity.
Defined.

(** X15. [BetweenTime(start, end)] is [After(start)] and [Before(end)]
    together, so unlike [Between] it rejects both bounds; with [end] not
    after [start] it accepts nothing, and a value that is not a time is
    rejected. *)
Theorem X15_BetweenTime_excludes_bounds (start end_ : denote TTime) (value : any) :
  Is.BetweenTime start end_ value = Is.After start value && Is.Before end_ value
  /\ Is.BetweenTime start end_ (to_any (t := TTime) start) = false
  /\ Is.BetweenTime start end_ (to_any (t := TTime) end_) = false
  /\ ((end_ <= start)%Z -> Is.BetweenTime start end_ value = false)
  /\ (type_assert TTime value = None -> Is.BetweenTime start end_ value = false).
Proof.
  unfold Is.BetweenTime, Is.After, Is.Before.
  rewrite !type_assert_to_any.
  split. { by destruct (type_assert TTime value). }
  split. { by rewrite Z.ltb_irrefl. }
  split. { by rewrite Z.ltb_irrefl, andb_false_r. }
  split.
  - intros Hle. destruct (type_assert TTime value) as [v|]; [|done].
    apply andb_false_iff. rewrite !Z.ltb_ge. lia.
  - by intros ->.
Qed.

Lemma X15_witness :
  Is.BetweenTime 5%Z 5%Z (to_any (t := TTime) 5%Z) = false.
Proof.
  apply (proj1 (proj2 (proj2 (proj2
    (X15_BetweenTime_excludes_bounds 5%Z 5%Z (to_any (t := TTime) 5%Z)))))).
  vm_compute. discriminate.
Defined.


(** ** Errors carry the name of their key *)

Section store_invariant.
Variable P : string -> list ValidationError.t -> Prop.
Hypothesis P_one : forall k m : string, P k [ValidationError.mk k m].
Hypothesis P_app : forall (k : string) (a b : list ValidationError.t),
    P k a -> P k b -> P k (a ++ b).

Let holds (st : Validator.t) : Prop := map_Forall P (entries_of st).

Lemma holds_appended (st : Validator.t) (field message : string) :
  holds st ->
  holds (Validator.mk (Some (appended (entries_of st) field
                               [ValidationError.mk field message]))).
Proof.
  intros I. unfold holds. rewrite entries_of_mk.
  apply map_Forall_insert_2; [|exact I].
  destruct (entries_of st !! field) as [a|] eqn:E; simpl; [|apply P_one].
  apply P_app; [by apply (I field)|apply P_one].
Qed.

Lemma holds_merged (st so : Validator.t) :
  holds st -> holds so ->
  holds (Validator.mk (Some (merged (entries_of st) (entries_of so)))).
Proof.
  intros I Io. unfold holds. rewrite entries_of_mk.
  intros f errs. rewrite merged_lookup.
  destruct (entries_of so !! f) as [b|] eqn:E; [|apply I].
  intros [= <-]. destruct (entries_of st !! f) as [a|] eqn:Ea; simpl.
  - apply P_app; [by apply (I f)|by apply (Io f)].
  - by apply (Io f).
Qed.

Lemma holds_new : holds new_Validator.
Proof.
  intros k errs H. unfold entries_of, new_Validator, make_map in H.
  simpl in H. by rewrite lookup_empty in H.
Qed.

Lemma exec_keeps (c : call) (h h' : heap) :
  map_Forall (fun _ st => holds st) h ->
  exec c h = Ok (tt, h') ->
  map_Forall (fun _ st => holds st) h'.
Proof.
  intros I R.
  assert (Hadd : forall v f m h1,
             Validator_AddError v f m h = Ok (tt, h1) ->
             map_Forall (fun _ st => holds st) h1).
  { intros v f m h1 R1. destruct (h !! v) as [st|] eqn:E.
    - rewrite (Validator_AddError_ok _ _ _ f m E) in R1. injection R1 as <-.
      apply map_Forall_insert_2; [|done]. apply holds_appended. by apply (I v).
    - by rewrite Validator_AddError_panic in R1. }
  assert (Hcheck : forall v b f m r h1,
             Validator_Check v b f m h = Ok (r, h1) ->
             map_Forall (fun _ st => holds st) h1).
  { intros v b f m r h1 R1. unfold Validator_Check in R1.
    destruct b; simpl in R1; [by injection R1 as _ <-|].
    destruct (Validator_AddError v f m h) as [[[] h2]|] eqn:A.
    - rewrite (bind_ok _ _ _ _ _ A) in R1. injection R1 as _ <-.
      by apply (Hadd v f m).
    - by rewrite bind_panic in R1. }
  destruct c as [|v f m|v m|v b f m|v b m|v o|v]; simpl in R.
  - apply bind_ret_tt_inv in R as [l R]. injection R as _ <-.
    apply map_Forall_insert_2; [apply holds_new|done].
  - by apply (Hadd v f m).
  - by apply (Hadd v StandaloneErrorKey m).
  - apply bind_ret_tt_inv in R as [r R]. by apply (Hcheck v b f m r).
  - apply bind_ret_tt_inv in R as [r R].
    by apply (Hcheck v b StandaloneErrorKey m r).
  - destruct (h !! v) as [st|] eqn:E; [destruct (h !! o) as [so|] eqn:Eo|].
    + rewrite (Validator_Merge_ok _ _ _ _ _ E Eo) in R. injection R as <-.
      apply map_Forall_insert_2; [|done].
      apply holds_merged; [by apply (I v)|by apply (I o)].
    + rewrite Validator_Merge_panic in R by auto. done.
    + rewrite Validator_Merge_panic in R by auto. done.
  - unfold Validator_Clear, store in R.
    destruct (h !! v); [|done]. injection R as <-.
    apply map_Forall_insert_2; [apply holds_new|done].
Qed.

Lemma reachable_keeps (h : heap) :
  reachable h -> map_Forall (fun _ st => holds st) h.
Proof.
  induction 1 as [|h h' c _ IH R].
  - apply map_Forall_empty.
  - by apply (exec_keeps c h h').
Qed.
End store_invariant.

(** X16. In every heap built from nothing by [New], [AddError],
    [AddStandaloneError], [Check], [CheckStandalone], [Merge] and [Clear]
    calls, the map [ValidationErrors] returns files every error under its own
    field name: an error found under key [k] has [Field] equal to [k]. *)
Theorem X16_errors_filed_under_their_field (h : heap) (v : loc) (st : Validator.t) :
  reachable h -> h !! v = Some st ->
  exists store : gomap (list ValidationError.t),
    Validator_ValidationErrors v h = Ok (store, h)
    /\ forall (k : string) (errs : list ValidationError.t) (e : ValidationError.t),
         map_entries store !! k = Some errs -> e ∈ errs ->
         ValidationError.Field e = k.
Proof.
  intros R E. exists (Validator.errors st). split.
  - unfold Validator_ValidationErrors.
    by rewrite (bind_ok _ _ _ _ _ (load_ok _ _ _ E)).
  - intros k errs e Hk He.
    assert (I : store_keyed st).
    { apply (reachable_keeps
               (fun k errs => Forall (fun e => ValidationError.Field e = k) errs))
        with (h := h) (i := v); [| |done..].
      - intros k' m. by constructor.
      - intros k' a b. apply Forall_app_2. }
    specialize (I k errs Hk). rewrite Forall_forall in I. by apply I.
Qed.

Lemma X16_witness :
  exists store : gomap (list ValidationError.t),
    Validator_ValidationErrors 1 heap_one_error = Ok (store, heap_one_error)
    /\ forall (k : string) (errs : list ValidationError.t) (e : ValidationError.t),
         map_entries store !! k = Some errs -> e ∈ errs ->
         ValidationError.Field e = k.
Proof.
  assert (E : heap_one_error !! 1%positive
              = Some (only "f" [ValidationError.mk "f" "m"]))
    by (vm_compute; reflexivity).
  exact (X16_errors_filed_under_their_field heap_one_error 1 _
           reachable_heap_one_error E).
Defined.
